(** * hub ci-status: aggregation, exit code and verbose report

    A shallow embedding of [commands/ci_status.go]: the severity table and
    [checkSeverity], the aggregation loop and the exit-code switch of
    [ciStatus], [stateRank], and the renderer [ciVerboseFormat] with its
    in-place stable sort of the status slice.

    Go strings are byte strings, modelled as [string] (one [ascii] per byte);
    Go's [int] and [uint32] values are modelled in [Z] (every number that
    occurs is a slice index, a byte length or a small constant, far from any
    wrap-around). *)

From Stdlib Require Import ZArith Lia List Permutation Sorted DecimalString.
From stdpp Require Import gmap strings list fin_maps sorting.
Import ListNotations.

Local Open Scope string_scope.
Local Open Scope list_scope.
Local Open Scope Z_scope.

(** ** Data model *)

(** [github.CIStatus], restricted to the three fields the command reads. *)
Record CIStatus := mkCIStatus {
  Context : string;
  State : string;
  TargetUrl : string
}.

(** ** Severity table (lines 64-88) *)

Definition severityList : list string :=
  [ "neutral"; "success"; "pending"; "cancelled"; "timed_out";
    "action_required"; "failure"; "error" ].

(** The [for i, state := range ...] loop of [checkSeverity], started at
    index [i]. *)
Fixpoint indexFrom (i : Z) (states : list string) (targetState : string) : Z :=
  match states with
  | [] => -1
  | state :: rest =>
      if String.eqb state targetState then i
      else indexFrom (i + 1) rest targetState
  end.

Definition checkSeverity (targetState : string) : Z :=
  indexFrom 0 severityList targetState.

(** ** Aggregation and exit code (lines 128-147 of [ciStatus]) *)

(** Body of the aggregation loop: the accumulator is replaced only by a
    strictly more severe state. *)
Definition aggregateStep (state : string) (status : CIStatus) : string :=
  if checkSeverity (State status) >? checkSeverity state
  then State status else state.

Definition overallState (statuses : list CIStatus) : string :=
  if Z.of_nat (length statuses) >? 0
  then fold_left aggregateStep statuses ""
  else "".

(** Severity of a check's state. *)
Definition sev (c : CIStatus) : Z := checkSeverity (State c).

Definition exitCodeOf (state : string) : Z :=
  if String.eqb state "success" || String.eqb state "neutral" then 0
  else if String.eqb state "failure" || String.eqb state "error"
          || String.eqb state "action_required" || String.eqb state "cancelled"
          || String.eqb state "timed_out" then 1
  else if String.eqb state "pending" then 2
  else 3.

(** ** Display rank (lines 271-280) *)

Definition stateRank (state : string) : Z :=
  if String.eqb state "failure" || String.eqb state "error"
     || String.eqb state "action_required" || String.eqb state "cancelled"
     || String.eqb state "timed_out" then 1
  else if String.eqb state "success" || String.eqb state "neutral" then 3
  else 2.

(** ** [sort.SliceStable]

    The sort is Go's standard library, not code of this repository.  It runs
    an insertion sort on blocks of 20 elements and merges the blocks stably,
    so on a slice of up to 20 elements the insertion sort below is the whole
    algorithm:

      for i := a + 1; i < b; i++
        for j := i; j > a && less(j, j-1); j-- swap(j, j-1)

    On longer slices the library documents a stable sort; for a [less] that
    compares a key, [stable_sort_is_insertionSort] shows that every such
    sort returns the list this one returns. *)

Section InsertionSort.
Context {A : Type} (less : A -> A -> bool).

(** Inner loop.  [before] is the sorted prefix read from right to left
    (nearest neighbour first); [x] moves left past every neighbour it is
    less than.  The result is again read from right to left. *)
Fixpoint sinkLeft (x : A) (before : list A) : list A :=
  match before with
  | [] => [x]
  | y :: rest => if less x y then y :: sinkLeft x rest else x :: before
  end.

Definition insertionSort (data : list A) : list A :=
  rev (fold_left (fun before x => sinkLeft x before) data []).
End InsertionSort.

(** ** The world: slices and terminal output *)

(** A slice is a reference to its backing array; passing a slice to a
    function shares the array with the caller. *)
Definition slice := nat.

(** Calls into the [ui] package, which is outside this file: they are
    recorded as events, in program order. *)
Inductive Output :=
| Println (line : string)
| PrintfWouldRequest (sha : string)
| PrintExpand (format : string) (placeholders : gmap string string)
              (colorize : bool).

Record World := mkWorld {
  heap : gmap nat (list CIStatus);
  trace : list Output
}.

(** State monad over the world. *)
Definition M (R : Type) : Type := World -> R * World.

Definition ret {R} (r : R) : M R := fun w => (r, w).

Definition bind {R S} (m : M R) (k : R -> M S) : M S :=
  fun w => let (r, w') := m w in k r w'.

Declare Scope go_scope.
Delimit Scope go_scope with go.
Notation "x <- m ;; k" := (bind m (fun x => k))
  (at level 100, m at next level, right associativity) : go_scope.
Notation "m ;;; k" := (bind m (fun _ => k))
  (at level 100, right associativity) : go_scope.
Local Open Scope go_scope.

(** Contents of a slice; a reference to no array is the nil slice. *)
Definition sliceAt (w : World) (s : slice) : list CIStatus :=
  default [] (heap w !! s).

Definition readSlice (s : slice) : M (list CIStatus) :=
  fun w => (sliceAt w s, w).

(** [sort.SliceStable(s, less)]: reorders the backing array in place. *)
Definition sortSliceStable (s : slice) (less : CIStatus -> CIStatus -> bool)
  : M unit :=
  fun w => (tt, mkWorld (alter (insertionSort less) s (heap w)) (trace w)).

Definition emit (e : Output) : M unit :=
  fun w => (tt, mkWorld (heap w) (trace w ++ [e])).

Fixpoint forRange {T} (items : list T) (body : T -> M unit) : M unit :=
  match items with
  | [] => ret tt
  | item :: rest => body item ;;; forRange rest body
  end.

(** ** The verbose renderer (lines 165-216) *)

(** Go's [len] of a string: its number of bytes. *)
Definition len (s : string) : Z := Z.of_nat (String.length s).

(** The verb [%d] of [fmt.Sprintf]. *)
Definition fmtInt (n : Z) : string := NilZero.string_of_int (Z.to_int n).

Definition bytes (codes : list nat) : string :=
  String.string_of_list_ascii (map Ascii.ascii_of_nat codes).

Definition ESC : string := bytes [27%nat].
Definition TAB : string := bytes [9%nat].
Definition NL : string := bytes [10%nat].

(** The four marker glyphs, as the UTF-8 bytes of the source file. *)
Definition markCheck : string := bytes [226; 156; 148; 239; 184; 142]%nat.
Definition markCross : string := bytes [226; 156; 150; 239; 184; 142]%nat.
Definition markSmallCircle : string := bytes [226; 151; 166]%nat.
Definition markFilledCircle : string := bytes [226; 151; 143]%nat.

(** Lines 166-171. *)
Definition contextWidth (statuses : list CIStatus) : Z :=
  fold_left (fun contextWidth status =>
               if len (Context status) >? contextWidth
               then len (Context status) else contextWidth)
            statuses 0.

(** The switch of lines 178-193: [(stateMarker, color)].  Both variables
    keep their zero value when no case matches. *)
Definition stateMarkerColor (state : string) : string * Z :=
  if String.eqb state "success" then (markCheck, 32)
  else if String.eqb state "failure" || String.eqb state "error"
          || String.eqb state "action_required" || String.eqb state "cancelled"
          || String.eqb state "timed_out" then (markCross, 31)
  else if String.eqb state "neutral" then (markSmallCircle, 30)
  else if String.eqb state "pending" then (markFilledCircle, 33)
  else ("", 0).

(** Lines 195-204. *)
Definition placeholdersOf (status : CIStatus) (color : Z) (colorize : bool)
  : gmap string string :=
  let placeholders : gmap string string :=
    <["U" := TargetUrl status]> (<["t" := Context status]>
      (<["sC" := ""]> (<["S" := State status]> ∅))) in
  if colorize
  then <["sC" := (ESC ++ "[" ++ fmtInt color ++ "m")%string]> placeholders
  else placeholders.

(** Lines 206-213. *)
Definition effectiveFormat (formatString stateMarker : string)
    (contextWidth : Z) (status : CIStatus) : string :=
  if String.eqb formatString "" then
    if String.eqb (TargetUrl status) ""
    then ("%sC" ++ stateMarker ++ "%Creset" ++ TAB ++ "%t" ++ NL)%string
    else ("%sC" ++ stateMarker ++ "%Creset" ++ TAB
            ++ "%<(" ++ fmtInt contextWidth ++ ")%t" ++ TAB ++ "%U" ++ NL)%string
  else formatString.

(** Body of the rendering loop (lines 177-215). *)
Definition verboseLine (formatString : string) (colorize : bool)
    (contextWidth : Z) (status : CIStatus) : Output :=
  let (stateMarker, color) := stateMarkerColor (State status) in
  PrintExpand (effectiveFormat formatString stateMarker contextWidth status)
              (placeholdersOf status color colorize)
              colorize.

Definition rankLess (a b : CIStatus) : bool :=
  stateRank (State a) <? stateRank (State b).

Definition ciVerboseFormat (statuses : slice) (formatString : string)
    (colorize : bool) : M unit :=
  items <- readSlice statuses ;;
  let width := contextWidth items in
  sortSliceStable statuses rankLess ;;;
  sorted <- readSlice statuses ;;
  forRange sorted (fun status =>
    emit (verboseLine formatString colorize width status)).

(** ** The command (lines 121-162)

    What precedes the fetch (reference and project resolution) and the
    fetch itself are calls into other packages; the command is modelled from
    the point where [sha] is known, with [response] the slice
    [response.Statuses] that [FetchCIStatus] returns. *)

Record Args := mkArgs {
  Noop : bool;
  flagVerbose : bool;       (* args.Flag.Bool("--verbose") *)
  formatReceived : bool;    (* args.Flag.HasReceived("--format") *)
  formatValue : string;     (* args.Flag.Value("--format") *)
  colorizeOutput : bool     (* colorizeOutput(HasReceived("--color"), Value("--color")) *)
}.

(** The result is the argument of [os.Exit], or [None] when the function
    returns without exiting. *)
Definition ciStatus (args : Args) (sha : string) (response : slice)
  : M (option Z) :=
  if Noop args then
    emit (PrintfWouldRequest sha) ;;; ret None
  else
    statuses <- readSlice response ;;
    let state := overallState statuses in
    let exitCode := exitCodeOf state in
    let verbose := flagVerbose args || formatReceived args in
    (if verbose && (Z.of_nat (length statuses) >? 0)
     then ciVerboseFormat response (formatValue args) (colorizeOutput args)
     else if negb (String.eqb state "")
          then emit (Println state)
          else emit (Println "no status")) ;;;
    ret (Some exitCode).

(** ** Observations and sample inputs *)

(** Display rank of a check. *)
Definition rankOf (c : CIStatus) : Z := stateRank (State c).

Definition failingFamily : list string :=
  [ "failure"; "error"; "action_required"; "cancelled"; "timed_out" ].

Definition passingFamily : list string := [ "success"; "neutral" ].

(** The largest severity of a list of checks, -1 when there is none. *)
Definition maxSeverity (statuses : list CIStatus) : Z :=
  fold_right Z.max (-1) (map sev statuses).

(** The [sC] placeholder and the template handed to [ui.Expand]. *)
Definition sCOf (e : Output) : option string :=
  match e with
  | PrintExpand _ placeholders _ => placeholders !! "sC"
  | _ => None
  end.

Definition formatOf (e : Output) : option string :=
  match e with
  | PrintExpand format _ _ => Some format
  | _ => None
  end.

Definition sampleChecks : list CIStatus :=
  [ mkCIStatus "build" "success" "";
    mkCIStatus "lint" "pending" "http://ci/lint";
    mkCIStatus "docs" "pending" "" ].

Definition unknownCheck : CIStatus := mkCIStatus "job" "unknown_state" "".

Definition plainArgs : Args := mkArgs false false false "" false.

Definition emptyWorld : World := mkWorld {[ 1%nat := [] ]} [].

Definition twoChecksWorld : World :=
  mkWorld {[ 1%nat := [ mkCIStatus "b" "success" "http://y";
                        mkCIStatus "a" "failure" "http://x" ] ]} [].

(** ** Pull-request arguments (lines 218-226 and 255-261)

    The two patterns are fixed, so each is embedded as the matcher it
    denotes.  [\d] is an ASCII digit; [\d+] is greedy, and in both patterns
    what follows it (the end of the text, or nothing) cannot match after a
    digit, so a match takes the longest run of digits. *)

Definition isDigit (c : Ascii.ascii) : bool :=
  (48 <=? Ascii.nat_of_ascii c)%nat && (Ascii.nat_of_ascii c <=? 57)%nat.

(** The longest run of digits at the start of a string, and what follows. *)
Fixpoint digitRun (s : string) : string * string :=
  match s with
  | String c rest =>
      if isDigit c
      then let (digits, tail) := digitRun rest in (String c digits, tail)
      else ("", s)
  | EmptyString => ("", "")
  end.

Fixpoint allDigits (s : string) : bool :=
  match s with
  | String c rest => isDigit c && allDigits rest
  | EmptyString => true
  end.

(** A literal right after [^]: the rest of the text when it starts with the
    literal. *)
Fixpoint stripPrefix (literal s : string) : option string :=
  match literal, s with
  | EmptyString, _ => Some s
  | String a literal', String b s' =>
      if Ascii.eqb a b then stripPrefix literal' s' else None
  | String _ _, EmptyString => None
  end.

(** [FindStringSubmatch(arg)[1]] for the pattern [^PR(\d+)$], [None] when
    [MatchString] is false. *)
Definition pullRequestIdRegex (arg : string) : option string :=
  match stripPrefix "PR" arg with
  | Some rest =>
      let (digits, tail) := digitRun rest in
      if negb (String.eqb digits "") && String.eqb tail "" then Some digits
      else None
  | None => None
  end.

Definition pullRequestId (arg : string) : string :=
  match pullRequestIdRegex arg with
  | None => ""
  | Some digits => digits
  end.

(** The same for the pattern [^pull/(\d+)] of [getRefAndProjectByUrl]. *)
Definition pullRequestRegex (projectPath : string) : option string :=
  match stripPrefix "pull/" projectPath with
  | Some rest =>
      let (digits, _) := digitRun rest in
      if negb (String.eqb digits "") then Some digits else None
  | None => None
  end.

(** ** The whole command (lines 90-163)

    A Go result pair [(value, err)] is a [Result]: the code reads the value
    only after it has found [err] to be nil.  [utils.Check] ends the command
    on an error; how it reports the error is outside this file, so the
    outcome only records the error. *)

Definition error := string.

Inductive Result (T : Type) :=
| Ok (v : T)
| Err (e : error).
Arguments Ok {T} v.
Arguments Err {T} e.

Definition andThen {T U} (r : Result T) (k : T -> Result U) : Result U :=
  match r with
  | Ok v => k v
  | Err e => Err e
  end.

Notation "x <~ r ;; k" := (andThen r (fun x => k))
  (at level 100, r at next level, right associativity) : go_scope.

Inductive Outcome :=
| Exited (code : Z)
| Returned
| Aborted (err : error).

Section Command.
Context {Repo Project URL : Type}.

(** The packages the command calls into.  [PullRequestHead project id] is
    [github.NewClient(project.Host).PullRequest(project, id)] followed by
    [.Head.Sha]; [FetchCIStatus project sha] is the same client's
    [FetchCIStatus(project, sha)] followed by [.Statuses]. *)
Record Env := mkEnv {
  LocalRepo : Result Repo;
  CurrentProject : Repo -> Result Project;
  MainProject : Repo -> Result Project;
  PullRequestHead : Project -> string -> Result string;
  ParseURL : string -> Result URL;
  ProjectPath : URL -> string;
  UrlProject : URL -> Project;
  GitRef : string -> Result string;
  FetchCIStatus : Project -> string -> Result slice
}.

Context (env : Env).

(** Lines 227-244. *)
Definition getRefByPullRequestId (pullRequestId : string) : Result string :=
  repo <~ LocalRepo env ;;
  project <~ CurrentProject env repo ;;
  PullRequestHead env project pullRequestId.

(** Lines 246-252: [None] is the nil URL. *)
Definition pullRequestUrl (arg : string) : option URL :=
  match ParseURL env arg with
  | Err _ => None
  | Ok url => Some url
  end.

(** Lines 254-269. *)
Definition getRefAndProjectByUrl (url : URL) : Result (string * Project) :=
  match pullRequestRegex (ProjectPath env url) with
  | None => Err "The URL does not contain a PR"
  | Some pullRequestId =>
      sha <~ PullRequestHead env (UrlProject env url) pullRequestId ;;
      Ok (sha, UrlProject env url)
  end.

(** Lines 91-105: the reference and, for a URL, the project ([None] is the
    nil project). *)
Definition resolveArgument (params : list string)
  : Result (string * option Project) :=
  match params with
  | [] => Ok ("HEAD", None)
  | arg :: _ =>
      let prId := pullRequestId arg in
      if negb (String.eqb prId "") then
        ref <~ getRefByPullRequestId prId ;; Ok (ref, None)
      else
        match pullRequestUrl arg with
        | Some prUrl =>
            found <~ getRefAndProjectByUrl prUrl ;;
            Ok (fst found, Some (snd found))
        | None => Ok (arg, None)
        end
  end.

(** Lines 107-113. *)
Definition resolveProject (project : option Project) : Result Project :=
  match project with
  | Some project => Ok project
  | None => localRepo <~ LocalRepo env ;; MainProject env localRepo
  end.

(** Lines 115-119. *)
Definition resolveSha (ref : string) : Result string :=
  match GitRef env ref with
  | Ok sha => Ok sha
  | Err _ =>
      Err ("Aborted: no revision could be determined from '" ++ ref ++ "'")%string
  end.

(** Lines 91-119 together: the project to ask and the commit. *)
Definition resolveCommit (params : list string) : Result (Project * string) :=
  resolved <~ resolveArgument params ;;
  project <~ resolveProject (snd resolved) ;;
  sha <~ resolveSha (fst resolved) ;;
  Ok (project, sha).

(** [ciStatus] from its first line; from the fetch on it is the function
    [ciStatus] above. *)
Definition ciStatusCommand (params : list string) (args : Args) : M Outcome :=
  match resolveCommit params with
  | Err e => ret (Aborted e)
  | Ok (project, sha) =>
      if Noop args then
        emit (PrintfWouldRequest sha) ;;; ret Returned
      else
        match FetchCIStatus env project sha with
        | Err e => ret (Aborted e)
        | Ok response =>
            code <- ciStatus args sha response ;;
            ret (match code with
                 | Some code => Exited code
                 | None => Returned
                 end)
        end
  end.

(** The same environment with another fetch, and with another local
    repository. *)
Definition withFetch (fetch : Project -> string -> Result slice) : Env :=
  mkEnv (LocalRepo env) (CurrentProject env) (MainProject env)
        (PullRequestHead env) (ParseURL env) (ProjectPath env)
        (UrlProject env) (GitRef env) fetch.

End Command.

Definition startsWithDigit (s : string) : bool :=
  match s with
  | String c _ => isDigit c
  | EmptyString => false
  end.

(** A sample environment: one local repository, a fork of github/hub; URLs
    are recognised by their host prefix and stand for their project path;
    every pull request and every reference but "nowhere" resolves. *)
Definition sampleEnv : @Env unit string string :=
  mkEnv (Ok tt)
        (fun _ => Ok "fork/hub")
        (fun _ => Ok "github/hub")
        (fun project id => Ok ("head-of-" ++ id)%string)
        (fun arg => match stripPrefix "https://github.com/github/hub/" arg with
                    | Some path => Ok path
                    | None => Err "not a URL"
                    end)
        (fun url => url)
        (fun _ => "github/hub")
        (fun ref => if String.eqb ref "nowhere"
                    then Err "fatal: bad revision"
                    else Ok ("sha-of-" ++ ref)%string)
        (fun _ _ => Ok 1%nat).

Definition noopArgs : Args := mkArgs true false false "" false.

Definition verboseArgs : Args := mkArgs false true false "" true.

Definition sortedWorld : World :=
  mkWorld {[ 1%nat := [ mkCIStatus "a" "failure" "http://x";
                        mkCIStatus "c" "pending" "";
                        mkCIStatus "b" "success" "http://y" ] ]} [].

(** * Lemmas *)

(** ** The model on small inputs *)

Example severity_of_states :
  map checkSeverity ["neutral"; "pending"; "error"; "unknown_state"; ""]
  = [0; 2; 7; -1; -1].
Proof. reflexivity. Qed.

Example success_then_pending :
  overallState [ mkCIStatus "build" "success" ""; mkCIStatus "lint" "pending" "" ]
  = "pending" /\ exitCodeOf "pending" = 2.
Proof. split; reflexivity. Qed.

Example failure_then_success :
  overallState [ mkCIStatus "a" "failure" "http://x";
                 mkCIStatus "b" "success" "http://y" ]
  = "failure" /\ exitCodeOf "failure" = 1.
Proof. split; reflexivity. Qed.

Example neutral_alone :
  overallState [ mkCIStatus "a" "neutral" "" ] = "neutral" /\
  exitCodeOf "neutral" = 0.
Proof. split; reflexivity. Qed.

Example sort_three_ranks :
  map Context
      (insertionSort rankLess
         [ mkCIStatus "s1" "success" ""; mkCIStatus "p1" "pending" "";
           mkCIStatus "f1" "failure" ""; mkCIStatus "u1" "odd" "";
           mkCIStatus "s2" "neutral" ""; mkCIStatus "f2" "cancelled" "" ])
  = [ "f1"; "f2"; "p1"; "u1"; "s1"; "s2" ].
Proof. reflexivity. Qed.

Example default_line_with_url :
  verboseLine "" true 5 (mkCIStatus "build" "pending" "http://ci/1")
  = PrintExpand
      ("%sC" ++ markFilledCircle ++ "%Creset" ++ TAB ++ "%<(5)%t" ++ TAB
         ++ "%U" ++ NL)%string
      (<["sC" := (ESC ++ "[33m")%string]>
         (<["U" := "http://ci/1"]> (<["t" := "build"]>
            (<["sC" := ""]> (<["S" := "pending"]> ∅)))))
      true.
Proof. reflexivity. Qed.

(** ** Facts about the severity table *)

Lemma indexFrom_cases i states target :
  indexFrom i states target = -1 \/
  (i <= indexFrom i states target < i + Z.of_nat (length states) /\
   nth_error states (Z.to_nat (indexFrom i states target - i)) = Some target).
Proof.
  revert i. induction states as [|s rest IH]; intros i; simpl.
  - now left.
  - destruct (String.eqb_spec s target) as [->|Hne].
    + right. split; [lia|]. now replace (i - i) with 0 by lia.
    + destruct (IH (i + 1)) as [Hm|[Hr Hn]]; [now left|right].
      split; [lia|].
      replace (Z.to_nat (indexFrom (i + 1) rest target - i))
        with (S (Z.to_nat (indexFrom (i + 1) rest target - (i + 1)))) by lia.
      exact Hn.
Qed.

Lemma indexFrom_In i states target :
  In target states -> i <= indexFrom i states target.
Proof.
  revert i. induction states as [|s rest IH]; intros i; simpl; [tauto|].
  intros [->|Hin].
  - rewrite String.eqb_refl. lia.
  - destruct (String.eqb s target); [lia|]. specialize (IH (i + 1) Hin). lia.
Qed.

Lemma checkSeverity_range s : -1 <= checkSeverity s < 8.
Proof.
  unfold checkSeverity.
  destruct (indexFrom_cases 0 severityList s) as [->|[H _]]; [lia|].
  change (Z.of_nat (length severityList)) with 8 in H. lia.
Qed.

Lemma checkSeverity_nth s :
  0 <= checkSeverity s ->
  nth_error severityList (Z.to_nat (checkSeverity s)) = Some s.
Proof.
  unfold checkSeverity. intros H.
  destruct (indexFrom_cases 0 severityList s) as [E|[_ Hn]]; [lia|].
  now rewrite Z.sub_0_r in Hn.
Qed.

Lemma checkSeverity_In s : In s severityList <-> 0 <= checkSeverity s.
Proof.
  split.
  - apply indexFrom_In.
  - intros H. eapply nth_error_In, checkSeverity_nth, H.
Qed.

Lemma checkSeverity_inj s t :
  0 <= checkSeverity s -> checkSeverity s = checkSeverity t -> s = t.
Proof.
  intros Hs E.
  pose proof (checkSeverity_nth s Hs) as Hn.
  rewrite E in Hs, Hn. rewrite (checkSeverity_nth t Hs) in Hn. congruence.
Qed.

Lemma checkSeverity_empty : checkSeverity "" = -1.
Proof. reflexivity. Qed.

(** ** The aggregation fold *)

(** Shape of the fold's result from any accumulator: either nothing beats the
    accumulator, or the result is the first element of maximal severity. *)
Lemma fold_aggregate_shape statuses acc :
  (Forall (fun d => sev d <= checkSeverity acc) statuses /\
   fold_left aggregateStep statuses acc = acc) \/
  (exists pre c post,
      statuses = pre ++ c :: post /\
      fold_left aggregateStep statuses acc = State c /\
      checkSeverity acc < sev c /\
      Forall (fun d => sev d < sev c) pre /\
      Forall (fun d => sev d <= sev c) post).
Proof.
  revert acc. induction statuses as [|x rest IH]; intros acc; simpl.
  - left. split; [constructor|reflexivity].
  - replace (aggregateStep acc x)
      with (if sev x >? checkSeverity acc then State x else acc) by reflexivity.
    destruct (Z.gtb_spec (sev x) (checkSeverity acc)) as [Hgt|Hle].
    + right.
      destruct (IH (State x))
        as [[Hall Hf]|(pre & c & post & -> & Hf & Hlt & Hpre & Hpost)].
      * exists [], x, rest. split; [reflexivity|]. split; [exact Hf|].
        split; [lia|]. split; [constructor|exact Hall].
      * exists (x :: pre), c, post. split; [reflexivity|]. split; [exact Hf|].
        fold (sev x) in Hlt. split; [lia|]. split; [|exact Hpost].
        constructor; [lia|exact Hpre].
    + destruct (IH acc)
        as [[Hall Hf]|(pre & c & post & -> & Hf & Hlt & Hpre & Hpost)].
      * left. split; [|exact Hf]. constructor; [lia|exact Hall].
      * right. exists (x :: pre), c, post. split; [reflexivity|].
        split; [exact Hf|]. split; [exact Hlt|]. split; [|exact Hpost].
        constructor; [lia|exact Hpre].
Qed.

Lemma overallState_fold statuses :
  overallState statuses = fold_left aggregateStep statuses "".
Proof.
  unfold overallState. destruct statuses; reflexivity.
Qed.

(** Unrecognised states never displace the accumulator, and recognised
    states of equal severity are the same string: the loop body commutes. *)
Lemma aggregateStep_severity acc x :
  checkSeverity (aggregateStep acc x) = Z.max (checkSeverity acc) (sev x).
Proof.
  unfold aggregateStep, sev.
  destruct (Z.gtb_spec (checkSeverity (State x)) (checkSeverity acc)); lia.
Qed.

Lemma aggregateStep_gt acc x :
  sev x > checkSeverity acc -> aggregateStep acc x = State x.
Proof.
  intros H. unfold aggregateStep. fold (sev x).
  destruct (Z.gtb_spec (sev x) (checkSeverity acc)); [reflexivity|lia].
Qed.

Lemma aggregateStep_le acc x :
  sev x <= checkSeverity acc -> aggregateStep acc x = acc.
Proof.
  intros H. unfold aggregateStep. fold (sev x).
  destruct (Z.gtb_spec (sev x) (checkSeverity acc)); [lia|reflexivity].
Qed.

(** Decide one loop step and rewrite it away. *)
Ltac step_cases acc x :=
  let H := fresh "Hstep" in
  destruct (Z_gt_le_dec (sev x) (checkSeverity acc)) as [H|H];
  [ rewrite (aggregateStep_gt acc x H) | rewrite (aggregateStep_le acc x H) ].

Lemma aggregateStep_comm acc x y :
  aggregateStep (aggregateStep acc x) y = aggregateStep (aggregateStep acc y) x.
Proof.
  pose proof (checkSeverity_range acc) as Ha.
  destruct (Z.eq_dec (sev x) (sev y)) as [E|NE].
  - destruct (Z_le_gt_dec 0 (sev x)) as [Hrec|Hun].
    + assert (State x = State y) as Exy by (apply checkSeverity_inj; assumption).
      unfold aggregateStep. now rewrite Exy.
    + rewrite (aggregateStep_le acc x), (aggregateStep_le acc y),
        (aggregateStep_le acc x) by lia.
      reflexivity.
  - repeat match goal with
           | |- context [aggregateStep acc ?b] => step_cases acc b
           end;
    repeat match goal with
           | |- context [aggregateStep ?a ?b] => step_cases a b
           end;
    unfold sev in *; try reflexivity; lia.
Qed.

Lemma fold_aggregate_Permutation l l' :
  Permutation l l' ->
  forall acc, fold_left aggregateStep l acc = fold_left aggregateStep l' acc.
Proof.
  induction 1 as [|x l l' _ IH|x y l|l l' l'' _ IH1 _ IH2]; intros acc; simpl.
  - reflexivity.
  - apply IH.
  - now rewrite aggregateStep_comm.
  - now rewrite IH1.
Qed.

Lemma overallState_Permutation l l' :
  Permutation l l' -> overallState l = overallState l'.
Proof.
  intros H. rewrite !overallState_fold. now apply fold_aggregate_Permutation.
Qed.

(** ** The insertion sort is a stable sort by key *)

Section InsertionSortByKey.
Context {A : Type} (key : A -> Z).

Let less (a b : A) : bool := key a <? key b.
Let ascending (a b : A) : Prop := key a <= key b.
Let descending (a b : A) : Prop := key b <= key a.
Let hasKey (k : Z) (a : A) : bool := key a =? k.

Lemma sinkLeft_Permutation x before :
  Permutation (sinkLeft less x before) (x :: before).
Proof.
  induction before as [|y rest IH]; simpl; [reflexivity|].
  destruct (less x y); [|reflexivity].
  rewrite IH. apply perm_swap.
Qed.

Lemma sinkLeft_descending x before :
  StronglySorted descending before ->
  StronglySorted descending (sinkLeft less x before).
Proof.
  induction before as [|y rest IH]; simpl; intros Hs.
  - repeat constructor.
  - apply StronglySorted_inv in Hs as [Hrest Hy].
    unfold less at 1. destruct (Z.ltb_spec (key x) (key y)) as [Hlt|Hge].
    + constructor; [now apply IH|].
      eapply Permutation_Forall; [symmetry; apply sinkLeft_Permutation|].
      constructor; [unfold descending; lia|exact Hy].
    + constructor; [now constructor|].
      constructor; [exact Hge|].
      eapply List.Forall_impl; [|exact Hy].
      unfold descending. intros a Ha. simpl in Ha. lia.
Qed.

Lemma sinkLeft_filter k x before :
  List.filter (hasKey k) (sinkLeft less x before)
  = List.filter (hasKey k) (x :: before).
Proof.
  induction before as [|y rest IH]; [reflexivity|].
  cbn [sinkLeft]. unfold less at 1.
  destruct (Z.ltb_spec (key x) (key y)) as [Hlt|Hge]; [|reflexivity].
  cbn [List.filter] in *. rewrite IH. unfold hasKey.
  destruct (Z.eqb_spec (key x) k), (Z.eqb_spec (key y) k); try reflexivity.
  lia.
Qed.

Let sweep (data before : list A) : list A :=
  fold_left (fun before x => sinkLeft less x before) data before.

Lemma sweep_Permutation data before :
  Permutation (sweep data before) (rev data ++ before).
Proof.
  revert before. induction data as [|x rest IH]; intros before; simpl.
  - reflexivity.
  - unfold sweep in *. simpl. rewrite IH, sinkLeft_Permutation.
    rewrite <- app_assoc. reflexivity.
Qed.

Lemma sweep_descending data before :
  StronglySorted descending before ->
  StronglySorted descending (sweep data before).
Proof.
  revert before. induction data as [|x rest IH]; intros before Hs; simpl.
  - exact Hs.
  - apply IH, sinkLeft_descending, Hs.
Qed.

Lemma sweep_filter k data before :
  List.filter (hasKey k) (sweep data before)
  = rev (List.filter (hasKey k) data) ++ List.filter (hasKey k) before.
Proof.
  revert before. induction data as [|x rest IH]; intros before.
  - reflexivity.
  - unfold sweep in *. cbn [fold_left]. rewrite IH, sinkLeft_filter.
    cbn [List.filter]. destruct (hasKey k x); [|reflexivity].
    cbn [rev]. now rewrite <- app_assoc.
Qed.

Lemma descending_rev l :
  StronglySorted descending l -> StronglySorted ascending (rev l).
Proof.
  induction 1 as [|x l Hl IH Hx]; simpl; [constructor|].
  apply StronglySorted_app_2; [|exact IH|repeat constructor].
  intros a b Ha Hb. apply list_elem_of_In in Ha, Hb.
  apply in_rev in Ha. destruct Hb as [<-|[]].
  rewrite List.Forall_forall in Hx. apply (Hx a Ha).
Qed.

Lemma insertionSort_Permutation data :
  Permutation (insertionSort less data) data.
Proof.
  unfold insertionSort. rewrite <- Permutation_rev.
  change (Permutation (sweep data []) data).
  rewrite sweep_Permutation, app_nil_r. symmetry. apply Permutation_rev.
Qed.

Lemma insertionSort_ascending data :
  StronglySorted ascending (insertionSort less data).
Proof.
  unfold insertionSort. apply descending_rev.
  apply (sweep_descending data []). constructor.
Qed.

Lemma insertionSort_stable k data :
  List.filter (hasKey k) (insertionSort less data)
  = List.filter (hasKey k) data.
Proof.
  unfold insertionSort. rewrite List.filter_rev.
  change (rev (List.filter (hasKey k) (sweep data []))
          = List.filter (hasKey k) data).
  rewrite sweep_filter. cbn [List.filter]. rewrite app_nil_r.
  apply rev_involutive.
Qed.
(** A list that is ordered by key and keeps, for every key, the input order
of the elements with that key is determined by the input: any sort that
meets the contract of a stable sort returns what the insertion sort
returns. *)
Lemma stable_order_unique l1 l2 :
  StronglySorted ascending l1 ->
  StronglySorted ascending l2 ->
  (forall k, List.filter (hasKey k) l1 = List.filter (hasKey k) l2) ->
  l1 = l2.
Proof.
  intros H1. revert l2.
  induction H1 as [|x r1 Hr1 IH Hx]; intros l2 H2 Hf.
  - destruct l2 as [|y r2]; [reflexivity|].
    specialize (Hf (key y)). cbn [List.filter] in Hf. unfold hasKey in Hf.
    rewrite Z.eqb_refl in Hf. discriminate.
  - destruct H2 as [|y r2 Hr2 Hy].
    + specialize (Hf (key x)). cbn [List.filter] in Hf. unfold hasKey in Hf.
      rewrite Z.eqb_refl in Hf. discriminate.
    + assert (key y <= key x) as Hyx.
      { assert (In x (List.filter (hasKey (key x)) (y :: r2))) as Hin.
        { rewrite <- Hf. cbn [List.filter]. unfold hasKey.
          rewrite Z.eqb_refl. now left. }
        apply filter_In in Hin as [[->|Hin] _]; [unfold ascending; lia|].
        rewrite List.Forall_forall in Hy. apply (Hy x Hin). }
      assert (key x <= key y) as Hxy.
      { assert (In y (List.filter (hasKey (key y)) (x :: r1))) as Hin.
        { rewrite Hf. cbn [List.filter]. unfold hasKey.
          rewrite Z.eqb_refl. now left. }
        apply filter_In in Hin as [[->|Hin] _]; [unfold ascending; lia|].
        rewrite List.Forall_forall in Hx. apply (Hx y Hin). }
      assert (x = y) as ->.
      { specialize (Hf (key x)). cbn [List.filter] in Hf. unfold hasKey in Hf.
        rewrite Z.eqb_refl in Hf.
        replace (key y =? key x) with true in Hf by (symmetry; lia).
        congruence. }
      f_equal. apply IH; [exact Hr2|].
      intros k. specialize (Hf k). cbn [List.filter] in Hf.
      destruct (hasKey k y); congruence.
Qed.

Lemma stable_sort_is_insertionSort data sorted :
  StronglySorted ascending sorted ->
  (forall k, List.filter (hasKey k) sorted = List.filter (hasKey k) data) ->
  sorted = insertionSort less data.
Proof.
  intros Hs Hf. apply stable_order_unique; [exact Hs| |].
  - apply insertionSort_ascending.
  - intros k. now rewrite insertionSort_stable.
Qed.
End InsertionSortByKey.

(** ** Running the renderer and the command *)

Lemma forRange_emit {T} (line : T -> Output) items w :
  forRange items (fun item => emit (line item)) w
  = (tt, mkWorld (heap w) (trace w ++ map line items)).
Proof.
  revert w. induction items as [|item rest IH]; intros [h t]; simpl.
  - unfold ret. now rewrite app_nil_r.
  - unfold bind, emit at 1. simpl. rewrite IH. simpl.
    now rewrite <- app_assoc.
Qed.

Lemma sliceAt_alter f s w w' :
  f [] = [] ->
  heap w' = alter f s (heap w) ->
  sliceAt w' s = f (sliceAt w s).
Proof.
  intros Hnil Hheap. unfold sliceAt. rewrite Hheap, lookup_alter_eq.
  destruct (heap w !! s); simpl; congruence.
Qed.

Lemma ciVerboseFormat_run statuses formatString colorize w :
  ciVerboseFormat statuses formatString colorize w
  = (tt,
     mkWorld (alter (insertionSort rankLess) statuses (heap w))
             (trace w ++
                map (verboseLine formatString colorize
                                 (contextWidth (sliceAt w statuses)))
                    (insertionSort rankLess (sliceAt w statuses)))).
Proof.
  destruct w as [h t].
  unfold ciVerboseFormat, bind, readSlice, sortSliceStable. simpl.
  rewrite forRange_emit. simpl.
  now rewrite (sliceAt_alter (insertionSort rankLess) statuses (mkWorld h t)
                (mkWorld (alter (insertionSort rankLess) statuses h) t)
                eq_refl eq_refl).
Qed.

Lemma ciVerboseFormat_slice statuses formatString colorize w :
  sliceAt (snd (ciVerboseFormat statuses formatString colorize w)) statuses
  = insertionSort rankLess (sliceAt w statuses).
Proof.
  rewrite ciVerboseFormat_run. now apply sliceAt_alter.
Qed.

Lemma ciStatus_exit args sha response w :
  Noop args = false ->
  fst (ciStatus args sha response w)
  = Some (exitCodeOf (overallState (sliceAt w response))).
Proof.
  intros Hnoop. unfold ciStatus. rewrite Hnoop.
  unfold bind at 1. unfold readSlice at 1. unfold bind.
  destruct (_ : M unit) as [u w']. reflexivity.
Qed.

Lemma widest_nonneg statuses :
  0 <= fold_right Z.max 0 (map (fun c => len (Context c)) statuses).
Proof. induction statuses; simpl; lia. Qed.

Lemma contextWidth_from statuses acc :
  0 <= acc ->
  fold_left (fun contextWidth status =>
               if len (Context status) >? contextWidth
               then len (Context status) else contextWidth)
            statuses acc
  = Z.max acc (fold_right Z.max 0 (map (fun c => len (Context c)) statuses)).
Proof.
  revert acc. induction statuses as [|c rest IH]; intros acc Hacc; simpl.
  - lia.
  - pose proof (widest_nonneg rest) as Hw.
    destruct (Z.gtb_spec (len (Context c)) acc); rewrite IH; lia.
Qed.

Lemma contextWidth_max statuses :
  contextWidth statuses
  = fold_right Z.max 0 (map (fun c => len (Context c)) statuses).
Proof.
  unfold contextWidth. rewrite contextWidth_from by lia.
  pose proof (widest_nonneg statuses). lia.
Qed.

(** * The claims *)

(** Case analysis on a state string against every literal it is compared
    with in the goal. *)
Ltac state_cases s :=
  repeat match goal with
         | |- context [String.eqb s ?lit] =>
             destruct (String.eqb_spec s lit) as [->|?]
         end.

(** C1: for a sequence of checks whose states are all recognised, every
    state's severity is its index in [severityList], and the aggregator
    returns the state of the first check whose severity is maximal: every
    check before it is strictly less severe, every check after it at most as
    severe.  (On the empty sequence there is no state to return and the
    result is the empty string.) *)
Theorem aggregator_first_maximal (statuses : list CIStatus) :
  Forall (fun c => In (State c) severityList) statuses ->
  Forall (fun c => 0 <= sev c /\
                   nth_error severityList (Z.to_nat (sev c)) = Some (State c))
         statuses /\
  (statuses = [] -> overallState statuses = "") /\
  (statuses <> [] ->
   exists pre c post,
     statuses = pre ++ c :: post /\
     overallState statuses = State c /\
     Forall (fun d => sev d < sev c) pre /\
     Forall (fun d => sev d <= sev c) post).
Proof.
  intros Hrec. split; [|split].
  - eapply List.Forall_impl; [|exact Hrec]. intros c Hc.
    apply checkSeverity_In in Hc. split; [exact Hc|].
    now apply checkSeverity_nth.
  - intros ->. reflexivity.
  - intros Hne. rewrite overallState_fold.
    destruct (fold_aggregate_shape statuses "")
      as [[Hall _]|(pre & c & post & E & Hf & _ & Hpre & Hpost)].
    + destruct statuses as [|c rest]; [contradiction|].
      apply Forall_inv in Hall. apply Forall_inv in Hrec.
      apply checkSeverity_In in Hrec. rewrite checkSeverity_empty in Hall.
      unfold sev in Hall. lia.
    + exists pre, c, post. auto.
Qed.

Lemma aggregator_first_maximal_witness :
  Forall (fun c => 0 <= sev c /\
                   nth_error severityList (Z.to_nat (sev c)) = Some (State c))
         sampleChecks /\
  (sampleChecks = [] -> overallState sampleChecks = "") /\
  (sampleChecks <> [] ->
   exists pre c post,
     sampleChecks = pre ++ c :: post /\
     overallState sampleChecks = State c /\
     Forall (fun d => sev d < sev c) pre /\
     Forall (fun d => sev d <= sev c) post).
Proof.
  apply (aggregator_first_maximal sampleChecks).
  repeat constructor; simpl; tauto.
Defined.

(** C3 (as amended): the aggregator's result is the empty string exactly
    when no check of the input has a recognised state, which includes the
    empty input; a single check in the unrecognised state "unknown_state"
    gives the empty overall state, and the exit code is 3. *)
Theorem aggregator_empty_iff_none_recognised :
  (forall statuses : list CIStatus,
      overallState statuses = "" <->
      Forall (fun c => ~ In (State c) severityList) statuses) /\
  (forall name url,
      overallState [mkCIStatus name "unknown_state" url] = "" /\
      exitCodeOf (overallState [mkCIStatus name "unknown_state" url]) = 3).
Proof.
  split; [|intros name url; split; reflexivity].
  intros statuses. rewrite overallState_fold.
  destruct (fold_aggregate_shape statuses "")
    as [[Hall Hf]|(pre & c & post & E & Hf & Hlt & _ & _)].
  - split; [intros _|intros _; exact Hf].
    eapply List.Forall_impl; [|exact Hall]. intros c Hc Hin.
    apply checkSeverity_In in Hin. rewrite checkSeverity_empty in Hc.
    unfold sev in Hc. lia.
  - rewrite checkSeverity_empty in Hlt. split.
    + intros Hempty. rewrite Hf in Hempty. unfold sev in Hlt.
      rewrite Hempty, checkSeverity_empty in Hlt. lia.
    + intros Hnone. subst statuses. apply Forall_app in Hnone as [_ Hc].
      apply Forall_inv in Hc. exfalso. apply Hc, checkSeverity_In.
      unfold sev in Hlt. lia.
Qed.

(** The claim as it stands fails on a single unrecognised check: the input
    is not empty, yet the result is the empty string and not
    "unknown_state". *)
Lemma unknown_alone_gives_empty :
  overallState [unknownCheck] = "" /\
  [unknownCheck] <> [] /\
  overallState [unknownCheck] <> "unknown_state".
Proof. repeat split; discriminate. Qed.

(** C4: the exit code is a total function of the overall state: 0 for
    success and neutral, 1 for the five failing states, 2 for pending, and
    3 for every other non-empty state; it takes no other value. *)
Theorem exit_code_table :
  exitCodeOf "success" = 0 /\ exitCodeOf "neutral" = 0 /\
  exitCodeOf "failure" = 1 /\ exitCodeOf "error" = 1 /\
  exitCodeOf "action_required" = 1 /\ exitCodeOf "cancelled" = 1 /\
  exitCodeOf "timed_out" = 1 /\
  exitCodeOf "pending" = 2 /\
  (forall state, state <> "" -> ~ In state severityList ->
                 exitCodeOf state = 3) /\
  (forall state, In (exitCodeOf state) [0; 1; 2; 3]).
Proof.
  repeat (split; [reflexivity|]). split.
  - intros state _ Hnot. unfold exitCodeOf. state_cases state;
      try reflexivity; exfalso; apply Hnot; simpl; tauto.
  - intros state. unfold exitCodeOf. state_cases state; simpl; tauto.
Qed.

(** C9: the overall state is the empty string or the state of some check of
    the input. *)
Theorem aggregator_result_from_input (statuses : list CIStatus) :
  overallState statuses = "" \/
  exists c, In c statuses /\ overallState statuses = State c.
Proof.
  rewrite overallState_fold.
  destruct (fold_aggregate_shape statuses "")
    as [[_ Hf]|(pre & c & post & E & Hf & _)]; [now left|right].
  exists c. split; [|exact Hf]. subst statuses. apply in_elt.
Qed.

(** C10: the overall state does not depend on the order of the checks. *)
Theorem aggregator_permutation_invariant (statuses statuses' : list CIStatus) :
  Permutation statuses statuses' ->
  overallState statuses = overallState statuses'.
Proof. apply overallState_Permutation. Qed.

Lemma aggregator_permutation_invariant_witness :
  overallState sampleChecks = overallState (rev sampleChecks).
Proof.
  apply (aggregator_permutation_invariant sampleChecks (rev sampleChecks)).
  apply Permutation_rev.
Defined.

(** C2 (as amended): when the fetched check list is empty, the command
    prints the line "no status", whatever its flags, and exits with code
    3. *)
Theorem empty_list_no_status (args : Args) (sha : string) (response : slice)
    (w : World) :
  Noop args = false ->
  sliceAt w response = [] ->
  ciStatus args sha response w
  = (Some 3, mkWorld (heap w) (trace w ++ [Println "no status"])).
Proof.
  intros Hnoop Hempty. unfold ciStatus. rewrite Hnoop.
  unfold bind at 1. unfold readSlice. rewrite Hempty. simpl.
  rewrite andb_false_r. reflexivity.
Qed.

Lemma empty_list_no_status_witness :
  ciStatus plainArgs "0123abc" 1%nat emptyWorld
  = (Some 3, mkWorld (heap emptyWorld) (trace emptyWorld ++ [Println "no status"])).
Proof.
  apply (empty_list_no_status plainArgs "0123abc" 1%nat emptyWorld);
    reflexivity.
Defined.

(** The exit code on an empty list is 3, not 0. *)
Lemma empty_list_exit_is_not_0 :
  sliceAt emptyWorld 1%nat = [] /\
  ciStatus plainArgs "0123abc" 1%nat emptyWorld
  = (Some 3, mkWorld (heap emptyWorld) [Println "no status"]) /\
  Some 3 <> Some 0.
Proof. repeat split. discriminate. Qed.

(** ** The verbose renderer *)

Lemma stateRank_table :
  (forall state, In state failingFamily -> stateRank state = 1) /\
  (forall state, In state ["success"; "neutral"] -> stateRank state = 3) /\
  stateRank "pending" = 2 /\
  (forall state, ~ In state severityList -> stateRank state = 2).
Proof.
  split; [|split; [|split]].
  - intros state Hin. simpl in Hin.
    repeat (destruct Hin as [<-|Hin]; [reflexivity|]). contradiction.
  - intros state Hin. simpl in Hin.
    repeat (destruct Hin as [<-|Hin]; [reflexivity|]). contradiction.
  - reflexivity.
  - intros state Hnot. unfold stateRank. state_cases state;
      try reflexivity; exfalso; apply Hnot; simpl; tauto.
Qed.

(** C5: the renderer emits one line per check, in the order of the slice
    after the sort; that order is a permutation of the input in which
    display ranks never decrease (rank 1 the failing family, rank 2 pending
    and unrecognised states, rank 3 success and neutral), and for every rank
    the checks of that rank appear in their input order. *)
Theorem verbose_order_stable (statuses : slice) (formatString : string)
    (colorize : bool) (w : World) :
  let before := sliceAt w statuses in
  let w' := snd (ciVerboseFormat statuses formatString colorize w) in
  let shown := sliceAt w' statuses in
  trace w' = trace w ++
             map (verboseLine formatString colorize (contextWidth before)) shown /\
  Permutation before shown /\
  StronglySorted (fun a b => rankOf a <= rankOf b) shown /\
  (forall rank, List.filter (fun c => rankOf c =? rank) shown
                = List.filter (fun c => rankOf c =? rank) before) /\
  (forall state, In state failingFamily -> stateRank state = 1) /\
  (forall state, In state ["success"; "neutral"] -> stateRank state = 3) /\
  stateRank "pending" = 2 /\
  (forall state, ~ In state severityList -> stateRank state = 2).
Proof.
  cbv zeta. rewrite ciVerboseFormat_slice.
  split; [|split; [|split; [|split]]].
  - now rewrite ciVerboseFormat_run.
  - symmetry. apply (insertionSort_Permutation rankOf).
  - apply (insertionSort_ascending rankOf).
  - intros rank. apply (insertionSort_stable rankOf).
  - exact stateRank_table.
Qed.

Lemma placeholdersOf_sC status color colorize :
  placeholdersOf status color colorize !! "sC"
  = Some (if colorize then (ESC ++ "[" ++ fmtInt color ++ "m")%string else "").
Proof.
  unfold placeholdersOf. destruct colorize.
  - apply lookup_insert_eq.
  - rewrite !lookup_insert_ne by discriminate. apply lookup_insert_eq.
Qed.

Lemma verboseLine_sC formatString colorize width status :
  sCOf (verboseLine formatString colorize width status)
  = Some (if colorize
          then (ESC ++ "[" ++ fmtInt (snd (stateMarkerColor (State status)))
                    ++ "m")%string
          else "").
Proof.
  unfold verboseLine. destruct (stateMarkerColor (State status)) as [m c].
  apply placeholdersOf_sC.
Qed.

Lemma stateMarkerColor_unknown state :
  ~ In state severityList -> stateMarkerColor state = ("", 0).
Proof.
  intros Hnot. unfold stateMarkerColor. state_cases state;
    try reflexivity; exfalso; apply Hnot; simpl; tauto.
Qed.

(** C6 (as amended): the renderer sorts the caller's slice in place.  After
    a rendering pass the slice holds the same checks, a permutation of its
    former content ordered by display rank with the input order kept inside
    each rank; every other slice is untouched; and the overall state is
    unaffected: it is the same on the reordered slice, and the command's
    exit code is the one of the sequence as fetched. *)
Theorem renderer_sorts_in_place (statuses : slice) (formatString : string)
    (colorize : bool) (w : World) :
  let before := sliceAt w statuses in
  let w' := snd (ciVerboseFormat statuses formatString colorize w) in
  let after := sliceAt w' statuses in
  (forall other, other <> statuses -> heap w' !! other = heap w !! other) /\
  Permutation before after /\
  StronglySorted (fun a b => rankOf a <= rankOf b) after /\
  (forall rank, List.filter (fun c => rankOf c =? rank) after
                = List.filter (fun c => rankOf c =? rank) before) /\
  overallState after = overallState before /\
  (forall args sha,
      Noop args = false ->
      fst (ciStatus args sha statuses w)
      = Some (exitCodeOf (overallState before))).
Proof.
  cbv zeta. rewrite ciVerboseFormat_slice.
  assert (Permutation (sliceAt w statuses)
            (insertionSort rankLess (sliceAt w statuses))) as Hperm
    by (symmetry; apply (insertionSort_Permutation rankOf)).
  split; [|split; [|split; [|split; [|split]]]].
  - intros other Hne. rewrite ciVerboseFormat_run. simpl.
    now apply lookup_alter_ne.
  - exact Hperm.
  - apply (insertionSort_ascending rankOf).
  - intros rank. apply (insertionSort_stable rankOf).
  - symmetry. now apply overallState_Permutation.
  - intros args sha Hnoop. now apply ciStatus_exit.
Qed.

(** A rendering pass over [success; failure] leaves the caller's slice as
    [failure; success]. *)
Lemma renderer_reorders_caller_slice :
  sliceAt twoChecksWorld 1%nat
  = [ mkCIStatus "b" "success" "http://y"; mkCIStatus "a" "failure" "http://x" ] /\
  sliceAt (snd (ciVerboseFormat 1%nat "" false twoChecksWorld)) 1%nat
  = [ mkCIStatus "a" "failure" "http://x"; mkCIStatus "b" "success" "http://y" ] /\
  sliceAt (snd (ciVerboseFormat 1%nat "" false twoChecksWorld)) 1%nat
  <> sliceAt twoChecksWorld 1%nat.
Proof. repeat split. discriminate. Qed.

(** C7 (as amended): the marker glyph and the colour follow the table
    (success: check mark, 32 green; failing family: cross, 31 red; neutral:
    small circle, 30 black; pending: filled circle, 33 yellow); [sC] is
    empty when colorize is off and the escape of the state's colour when it
    is on.  For a state outside the table the glyph is empty, and [sC] is
    empty when colorize is off but the escape ESC[0m, of the colour
    variable's zero value, when it is on. *)
Theorem marker_and_color_table :
  stateMarkerColor "success" = (markCheck, 32) /\
  (forall state, In state failingFamily ->
                 stateMarkerColor state = (markCross, 31)) /\
  stateMarkerColor "neutral" = (markSmallCircle, 30) /\
  stateMarkerColor "pending" = (markFilledCircle, 33) /\
  (forall state, ~ In state severityList -> stateMarkerColor state = ("", 0)) /\
  (forall formatString width status,
      sCOf (verboseLine formatString false width status) = Some "") /\
  (forall formatString width status,
      sCOf (verboseLine formatString true width status)
      = Some (ESC ++ "[" ++ fmtInt (snd (stateMarkerColor (State status)))
                  ++ "m")%string) /\
  (fmtInt 32 = "32" /\ fmtInt 31 = "31" /\ fmtInt 30 = "30" /\
   fmtInt 33 = "33") /\
  (forall formatString width status,
      ~ In (State status) severityList ->
      sCOf (verboseLine formatString true width status)
      = Some (ESC ++ "[0m")%string).
Proof.
  split; [reflexivity|]. split.
  { intros state Hin. simpl in Hin.
    repeat (destruct Hin as [<-|Hin]; [reflexivity|]). contradiction. }
  split; [reflexivity|]. split; [reflexivity|].
  split; [exact stateMarkerColor_unknown|].
  split; [intros; apply verboseLine_sC|].
  split; [intros; apply verboseLine_sC|].
  split; [repeat split|].
  intros formatString width status Hnot.
  rewrite verboseLine_sC, (stateMarkerColor_unknown _ Hnot). reflexivity.
Qed.

(** For an unrecognised state with colorize on, [sC] is not empty. *)
Lemma unknown_state_sC_not_empty :
  sCOf (verboseLine "" true 3 unknownCheck) = Some (ESC ++ "[0m")%string /\
  stateMarkerColor (State unknownCheck) = ("", 0) /\
  Some (ESC ++ "[0m")%string <> Some "".
Proof. repeat split. discriminate. Qed.

(** C8: every line the renderer emits is expanded from the user's format,
    verbatim, when that is not empty.  Otherwise the template depends on the
    check only through its marker and on whether its URL is empty: without a
    URL it is marker, reset, tab, name; with a URL the name is padded to
    [contextWidth], the largest name length of the slice (0 when it is
    empty), and a tab and the URL follow.  The check's state plays no other
    part. *)
Theorem effective_template (statuses : slice) (formatString : string)
    (colorize : bool) (w : World) :
  let before := sliceAt w statuses in
  let width := contextWidth before in
  let w' := snd (ciVerboseFormat statuses formatString colorize w) in
  trace w' = trace w ++
             map (verboseLine formatString colorize width) (sliceAt w' statuses) /\
  width = fold_right Z.max 0 (map (fun c => len (Context c)) before) /\
  (forall status,
      let marker := fst (stateMarkerColor (State status)) in
      let template := formatOf (verboseLine formatString colorize width status) in
      (formatString <> "" -> template = Some formatString) /\
      (formatString = "" -> TargetUrl status = "" ->
       template = Some ("%sC" ++ marker ++ "%Creset" ++ TAB ++ "%t" ++ NL)%string) /\
      (formatString = "" -> TargetUrl status <> "" ->
       template = Some ("%sC" ++ marker ++ "%Creset" ++ TAB ++ "%<("
                          ++ fmtInt width ++ ")%t" ++ TAB ++ "%U" ++ NL)%string)) /\
  (forall marker status state,
      effectiveFormat formatString marker width
        (mkCIStatus (Context status) state (TargetUrl status))
      = effectiveFormat formatString marker width status).
Proof.
  cbv zeta. split; [|split; [|split]].
  - rewrite ciVerboseFormat_slice. now rewrite ciVerboseFormat_run.
  - apply contextWidth_max.
  - intros status. unfold verboseLine.
    destruct (stateMarkerColor (State status)) as [marker color]. simpl.
    unfold effectiveFormat.
    destruct (String.eqb_spec formatString "") as [Hf|Hf];
      destruct (String.eqb_spec (TargetUrl status) "") as [Hu|Hu];
      repeat split; intros; try reflexivity; contradiction.
  - reflexivity.
Qed.

(** * Beyond the claims *)

(** ** Pull-request identifiers and paths *)

Lemma stripPrefix_app literal s :
  stripPrefix literal (literal ++ s)%string = Some s.
Proof.
  induction literal as [|a literal IH]; simpl; [reflexivity|].
  now rewrite Ascii.eqb_refl.
Qed.

Lemma stripPrefix_Some literal s rest :
  stripPrefix literal s = Some rest -> s = (literal ++ rest)%string.
Proof.
  revert s. induction literal as [|a literal IH]; intros s; simpl.
  - now intros [= ->].
  - destruct s as [|b s]; [discriminate|].
    destruct (Ascii.eqb_spec a b) as [->|]; [|discriminate].
    intros H. now rewrite (IH s H).
Qed.

Lemma digitRun_spec s :
  s = (fst (digitRun s) ++ snd (digitRun s))%string /\
  allDigits (fst (digitRun s)) = true /\
  startsWithDigit (snd (digitRun s)) = false.
Proof.
  induction s as [|c s (IHs & IHd & IHt)]; simpl; [auto|].
  destruct (isDigit c) eqn:Hc.
  - destruct (digitRun s) as [digits tail]. simpl in *.
    rewrite Hc. split; [rewrite IHs at 1; reflexivity|auto].
  - simpl. auto.
Qed.

Lemma digitRun_app digits tail :
  allDigits digits = true ->
  startsWithDigit tail = false ->
  digitRun (digits ++ tail)%string = (digits, tail).
Proof.
  intros Hd Ht. induction digits as [|c digits IH]; simpl in *.
  - destruct tail as [|c tail]; [reflexivity|]. simpl in *. now rewrite Ht.
  - apply andb_true_iff in Hd as [Hc Hd]. now rewrite Hc, IH.
Qed.

Lemma append_cons c (s t : string) :
  (String c s ++ t)%string = String c (s ++ t)%string.
Proof. reflexivity. Qed.

Lemma append_empty_r (s : string) : (s ++ "")%string = s.
Proof.
  induction s as [|c s IH]; [reflexivity|]. now rewrite append_cons, IH.
Qed.

Lemma pullRequestIdRegex_Some arg digits :
  pullRequestIdRegex arg = Some digits <->
  digits <> "" /\ allDigits digits = true /\ arg = ("PR" ++ digits)%string.
Proof.
  unfold pullRequestIdRegex. split.
  - destruct (stripPrefix "PR" arg) as [rest|] eqn:Hp; [|discriminate].
    apply stripPrefix_Some in Hp.
    destruct (digitRun_spec rest) as (Hs & Hd & _).
    destruct (digitRun rest) as [d tail]. simpl in *.
    destruct (String.eqb_spec d ""); [discriminate|].
    destruct (String.eqb_spec tail "") as [->|]; [|discriminate].
    simpl. intros [= <-]. rewrite append_empty_r in Hs. subst. auto.
  - intros (Hne & Hd & ->). rewrite stripPrefix_app.
    rewrite <- (append_empty_r digits) at 1.
    rewrite (digitRun_app digits "" Hd eq_refl).
    destruct (String.eqb_spec digits ""); [contradiction|reflexivity].
Qed.

(** X1: [pullRequestId] recognises exactly the arguments "PR" followed by
    one or more digits and nothing else, and returns the digits as they are
    written. *)
Theorem pullRequestId_iff (arg digits : string) :
  digits <> "" ->
  (pullRequestId arg = digits <->
   arg = ("PR" ++ digits)%string /\ allDigits digits = true).
Proof.
  intros Hne. unfold pullRequestId. split.
  - destruct (pullRequestIdRegex arg) as [d|] eqn:Hm; [|congruence].
    intros ->. apply pullRequestIdRegex_Some in Hm. tauto.
  - intros [-> Hd].
    assert (pullRequestIdRegex ("PR" ++ digits) = Some digits) as ->
      by (apply pullRequestIdRegex_Some; auto).
    reflexivity.
Qed.

Lemma pullRequestId_iff_witness :
  pullRequestId "PR0042" = "0042" <->
  "PR0042" = ("PR" ++ "0042")%string /\ allDigits "0042" = true.
Proof. apply (pullRequestId_iff "PR0042" "0042"). discriminate. Defined.

Lemma pullRequestRegex_Some projectPath digits :
  pullRequestRegex projectPath = Some digits <->
  digits <> "" /\ allDigits digits = true /\
  exists rest, startsWithDigit rest = false /\
               projectPath = ("pull/" ++ digits ++ rest)%string.
Proof.
  unfold pullRequestRegex. split.
  - destruct (stripPrefix "pull/" projectPath) as [after|] eqn:Hp;
      [|discriminate].
    apply stripPrefix_Some in Hp.
    destruct (digitRun_spec after) as (Hs & Hd & Ht).
    destruct (digitRun after) as [d tail]. simpl in *.
    destruct (String.eqb_spec d ""); [discriminate|].
    simpl. intros [= <-]. repeat split; auto.
    exists tail. split; [exact Ht|]. now rewrite <- Hs.
  - intros (Hne & Hd & rest & Ht & ->). rewrite stripPrefix_app.
    rewrite (digitRun_app digits rest Hd Ht).
    destruct (String.eqb_spec digits ""); [contradiction|reflexivity].
Qed.

Lemma pullRequestRegex_None projectPath :
  (forall c rest, projectPath = ("pull/" ++ String c rest)%string ->
                  isDigit c = false) ->
  pullRequestRegex projectPath = None.
Proof.
  intros Hno. destruct (pullRequestRegex projectPath) as [d|] eqn:Hm;
    [exfalso|reflexivity].
  apply pullRequestRegex_Some in Hm as (Hne & Hd & rest & _ & ->).
  destruct d as [|c d]; [contradiction|].
  specialize (Hno c (d ++ rest)%string eq_refl).
  simpl in Hd. rewrite Hno in Hd. discriminate.
Qed.

(** ** The command before the fetch *)

Section CommandFacts.
Context {Repo Project URL : Type} (env : @Env Repo Project URL).

Lemma pullRequestId_of_digits digits :
  digits <> "" -> allDigits digits = true ->
  pullRequestId ("PR" ++ digits)%string = digits.
Proof.
  intros Hne Hd. unfold pullRequestId.
  assert (pullRequestIdRegex ("PR" ++ digits) = Some digits) as ->
    by (apply pullRequestIdRegex_Some; auto).
  reflexivity.
Qed.

Lemma exitCodeOf_range state : In (exitCodeOf state) [0; 1; 2; 3].
Proof. unfold exitCodeOf. state_cases state; simpl; tauto. Qed.

(** X2: for a URL whose project path is "pull/", one or more digits, and
    then anything that does not go on with a digit (nothing, or further
    path segments), the pull request with those digits is looked up in the
    URL's own project; on success its head and that project are returned,
    and a failed lookup is returned as it is. *)
Theorem url_pull_request_lookup (url : URL) (digits rest : string) :
  digits <> "" ->
  allDigits digits = true ->
  startsWithDigit rest = false ->
  ProjectPath env url = ("pull/" ++ digits ++ rest)%string ->
  getRefAndProjectByUrl env url
  = match PullRequestHead env (UrlProject env url) digits with
    | Ok sha => Ok (sha, UrlProject env url)
    | Err e => Err e
    end.
Proof.
  intros Hne Hd Ht Hpath. unfold getRefAndProjectByUrl.
  assert (pullRequestRegex (ProjectPath env url) = Some digits) as ->.
  { apply pullRequestRegex_Some. repeat split; auto. now exists rest. }
  reflexivity.
Qed.

(** X3: for a URL whose project path is not "pull/" followed by a digit,
    the result is the error "The URL does not contain a PR", whatever the
    server would answer. *)
Theorem url_without_pull_request (url : URL) :
  (forall c rest, ProjectPath env url = ("pull/" ++ String c rest)%string ->
                  isDigit c = false) ->
  getRefAndProjectByUrl env url = Err "The URL does not contain a PR".
Proof.
  intros Hno. unfold getRefAndProjectByUrl.
  now rewrite (pullRequestRegex_None _ Hno).
Qed.

(** X4: a command that ends on an error has printed nothing and has left
    every slice as it was. *)
Theorem abort_changes_nothing (params : list string) (args : Args)
    (w : World) (e : error) :
  fst (ciStatusCommand env params args w) = Aborted e ->
  snd (ciStatusCommand env params args w) = w.
Proof.
  unfold ciStatusCommand.
  destruct (resolveCommit env params) as [[project sha]|e0]; [|reflexivity].
  destruct (Noop args); [discriminate|].
  destruct (FetchCIStatus env project sha) as [response|e1]; [|reflexivity].
  unfold bind. destruct (ciStatus args sha response w) as [[code|] w'];
    discriminate.
Qed.

(** X5: the command exits only when it was not a dry run and the commit
    was resolved and its checks fetched; the exit code is then the one of
    the overall state of the fetched checks, one of 0, 1, 2, 3. *)
Theorem exit_only_after_fetch (params : list string) (args : Args)
    (w : World) (code : Z) :
  fst (ciStatusCommand env params args w) = Exited code ->
  Noop args = false /\
  In code [0; 1; 2; 3] /\
  exists project sha response,
    resolveCommit env params = Ok (project, sha) /\
    FetchCIStatus env project sha = Ok response /\
    code = exitCodeOf (overallState (sliceAt w response)).
Proof.
  unfold ciStatusCommand.
  destruct (resolveCommit env params) as [[project sha]|e0]; [|discriminate].
  destruct (Noop args) eqn:Hnoop; [discriminate|].
  destruct (FetchCIStatus env project sha) as [response|e1] eqn:Hfetch;
    [|discriminate].
  pose proof (ciStatus_exit args sha response w Hnoop) as Hexit.
  unfold bind. destruct (ciStatus args sha response w) as [[c|] w'];
    simpl in *; [|discriminate].
  intros [= <-]. injection Hexit as ->.
  split; [reflexivity|]. split; [apply exitCodeOf_range|].
  now exists project, sha, response.
Qed.

(** X6: a dry run never fetches and never exits: its result is the same
    whatever the fetch would return, no slice changes, and the outcome is
    not an exit. *)
Theorem noop_never_fetches (params : list string) (args : Args) (w : World)
    (fetch : Project -> string -> Result slice) :
  Noop args = true ->
  ciStatusCommand (withFetch env fetch) params args w
  = ciStatusCommand env params args w /\
  heap (snd (ciStatusCommand env params args w)) = heap w /\
  (forall code, fst (ciStatusCommand env params args w) <> Exited code).
Proof.
  intros Hnoop. unfold ciStatusCommand. rewrite Hnoop.
  change (resolveCommit (withFetch env fetch) params)
    with (resolveCommit env params).
  destruct (resolveCommit env params) as [[project sha]|e0];
    repeat split; try reflexivity; discriminate.
Qed.


(** X8: for an argument "PR" followed by digits, the pull request with
    those digits is looked up in the current project of the local
    repository, its head is resolved by git, and the project whose checks
    are fetched is the main project of the local repository; the argument
    is never parsed as a URL. *)
Theorem pull_request_id_route (digits : string) (rest : list string)
    (repo : Repo) (current main : Project) (head sha : string) :
  digits <> "" ->
  allDigits digits = true ->
  LocalRepo env = Ok repo ->
  CurrentProject env repo = Ok current ->
  MainProject env repo = Ok main ->
  PullRequestHead env current digits = Ok head ->
  GitRef env head = Ok sha ->
  resolveCommit env (("PR" ++ digits)%string :: rest) = Ok (main, sha).
Proof.
  intros Hne Hd Hrepo Hcur Hmain Hpr Hgit.
  unfold resolveCommit, resolveArgument.
  rewrite (pullRequestId_of_digits digits Hne Hd).
  destruct (String.eqb_spec digits ""); [contradiction|]. simpl.
  unfold getRefByPullRequestId. rewrite Hrepo. simpl. rewrite Hcur. simpl.
  rewrite Hpr. simpl. unfold resolveProject. rewrite Hrepo. simpl.
  rewrite Hmain. simpl. unfold resolveSha. now rewrite Hgit.
Qed.

End CommandFacts.

Lemma url_pull_request_lookup_witness :
  getRefAndProjectByUrl sampleEnv "pull/77/files"
  = match PullRequestHead sampleEnv (UrlProject sampleEnv "pull/77/files") "77" with
    | Ok sha => Ok (sha, UrlProject sampleEnv "pull/77/files")
    | Err e => Err e
    end.
Proof.
  apply (url_pull_request_lookup sampleEnv "pull/77/files" "77" "/files");
    [discriminate|reflexivity..].
Defined.

Lemma url_without_pull_request_witness :
  getRefAndProjectByUrl sampleEnv "issues/77"
  = Err "The URL does not contain a PR".
Proof.
  apply (url_without_pull_request sampleEnv "issues/77").
  intros c rest H. vm_compute in H. discriminate H.
Defined.

Lemma abort_changes_nothing_witness :
  snd (ciStatusCommand sampleEnv ["nowhere"] plainArgs twoChecksWorld)
  = twoChecksWorld.
Proof.
  apply (abort_changes_nothing sampleEnv ["nowhere"] plainArgs twoChecksWorld
           "Aborted: no revision could be determined from 'nowhere'").
  reflexivity.
Defined.

Lemma exit_only_after_fetch_witness :
  Noop plainArgs = false /\
  In 1 [0; 1; 2; 3] /\
  exists project sha response,
    resolveCommit sampleEnv ["PR12"] = Ok (project, sha) /\
    FetchCIStatus sampleEnv project sha = Ok response /\
    1 = exitCodeOf (overallState (sliceAt twoChecksWorld response)).
Proof.
  apply (exit_only_after_fetch sampleEnv ["PR12"] plainArgs twoChecksWorld 1).
  reflexivity.
Defined.

Lemma noop_never_fetches_witness :
  ciStatusCommand (withFetch sampleEnv (fun _ _ => Err "offline"))
                  ["PR12"] noopArgs twoChecksWorld
  = ciStatusCommand sampleEnv ["PR12"] noopArgs twoChecksWorld /\
  heap (snd (ciStatusCommand sampleEnv ["PR12"] noopArgs twoChecksWorld))
  = heap twoChecksWorld /\
  (forall code,
      fst (ciStatusCommand sampleEnv ["PR12"] noopArgs twoChecksWorld)
      <> Exited code).
Proof.
  apply (noop_never_fetches sampleEnv ["PR12"] noopArgs twoChecksWorld).
  reflexivity.
Defined.


Lemma pull_request_id_route_witness :
  resolveCommit sampleEnv ["PR12"] = Ok ("github/hub", "sha-of-head-of-12").
Proof.
  apply (pull_request_id_route sampleEnv "12" [] tt "fork/hub" "github/hub"
           "head-of-12" "sha-of-head-of-12");
    [discriminate|reflexivity..].
Defined.


(** ** Severity, exit code and the states that occur *)

(** Split on whether a state is one of the eight literals; a literal is
    substituted, so that every function of it computes. *)
Ltac known_or_not s :=
  let Hin := fresh "Hin" in
  destruct (in_dec String.string_dec s severityList) as [Hin|Hin];
  [ unfold severityList in Hin; simpl in Hin;
    repeat (destruct Hin as [Hin|Hin]; [subst s|]); [..|contradiction] | ].

Lemma exitCodeOf_unknown state :
  ~ In state severityList -> exitCodeOf state = 3.
Proof.
  intros Hnot. unfold exitCodeOf. state_cases state;
    try reflexivity; exfalso; apply Hnot; simpl; tauto.
Qed.

Lemma checkSeverity_unknown state :
  ~ In state severityList -> checkSeverity state = -1.
Proof.
  intros Hnot. pose proof (checkSeverity_range state).
  destruct (Z_le_gt_dec 0 (checkSeverity state)) as [H0|H0]; [|lia].
  apply checkSeverity_In in H0. contradiction.
Qed.

Lemma exit_by_severity state :
  exitCodeOf state
  = if checkSeverity state <? 0 then 3
    else if checkSeverity state <=? 1 then 0
    else if checkSeverity state =? 2 then 2
    else 1.
Proof.
  known_or_not state; try reflexivity.
  now rewrite exitCodeOf_unknown, checkSeverity_unknown.
Qed.

Lemma failing_severity state :
  In state failingFamily <-> 3 <= checkSeverity state.
Proof.
  known_or_not state;
    try (split; [intros _; vm_compute; discriminate|intros _; simpl; tauto]);
    try (split; [intros H; simpl in H; repeat (destruct H as [H|H]; [discriminate H|]);
                 contradiction
                |intros H; vm_compute in H; exfalso; now apply H]).
  rewrite checkSeverity_unknown by assumption. split; [|lia].
  intros H. exfalso. apply Hin. simpl in H. simpl. tauto.
Qed.

Lemma passing_severity state :
  In state passingFamily <-> 0 <= checkSeverity state <= 1.
Proof.
  known_or_not state;
    try (split; [intros _; vm_compute; split; discriminate|intros _; simpl; tauto]);
    try (split; [intros H; simpl in H; repeat (destruct H as [H|H]; [discriminate H|]);
                 contradiction
                |intros [_ H]; vm_compute in H; exfalso; now apply H]).
  rewrite checkSeverity_unknown by assumption. split; [|lia].
  intros H. exfalso. apply Hin. simpl in H. simpl. tauto.
Qed.

Lemma pending_severity state :
  state = "pending" <-> checkSeverity state = 2.
Proof.
  known_or_not state;
    try (split; [intros _; reflexivity|intros _; reflexivity]);
    try (split; intros H; discriminate H).
  rewrite checkSeverity_unknown by assumption. split; [|lia].
  intros ->. exfalso. apply Hin. simpl. tauto.
Qed.

Lemma fold_aggregate_severity statuses acc :
  checkSeverity (fold_left aggregateStep statuses acc)
  = Z.max (checkSeverity acc) (maxSeverity statuses).
Proof.
  revert acc. induction statuses as [|c rest IH]; intros acc; simpl.
  - pose proof (checkSeverity_range acc). unfold maxSeverity. simpl. lia.
  - rewrite IH, aggregateStep_severity. unfold maxSeverity. simpl. lia.
Qed.

Lemma maxSeverity_ge k statuses :
  -1 < k ->
  (k <= maxSeverity statuses <-> Exists (fun c => k <= sev c) statuses).
Proof.
  intros Hk. unfold maxSeverity.
  induction statuses as [|c rest IH]; simpl.
  - split; [lia|]. intros H. inversion H.
  - rewrite List.Exists_cons, <- IH. lia.
Qed.

Lemma maxSeverity_le k statuses :
  -1 <= k ->
  (maxSeverity statuses <= k <-> Forall (fun c => sev c <= k) statuses).
Proof.
  intros Hk. unfold maxSeverity.
  induction statuses as [|c rest IH]; simpl.
  - split; [constructor|lia].
  - rewrite List.Forall_cons_iff, <- IH. lia.
Qed.

(** X10: a state's severity is its position in [severityList]: looking up
    the state found at a position gives that position back, and the
    severity is -1 exactly for the states that are not in the list. *)
Theorem severity_index_round_trip :
  (forall i state,
      nth_error severityList i = Some state ->
      checkSeverity state = Z.of_nat i) /\
  (forall state, checkSeverity state = -1 <-> ~ In state severityList).
Proof.
  split.
  - intros i state H. unfold severityList in H.
    do 8 (destruct i as [|i]; [injection H as <-; reflexivity|]).
    destruct i; discriminate H.
  - intros state. split.
    + intros Hs Hin. apply checkSeverity_In in Hin. lia.
    + apply checkSeverity_unknown.
Qed.

Lemma maxSeverity_lower statuses : -1 <= maxSeverity statuses.
Proof. unfold maxSeverity. induction statuses; simpl; lia. Qed.

Lemma maxSeverity_app statuses more :
  maxSeverity (statuses ++ more)
  = Z.max (maxSeverity statuses) (maxSeverity more).
Proof.
  pose proof (maxSeverity_lower more). unfold maxSeverity in *.
  induction statuses as [|c rest IH]; simpl; [lia|]. rewrite IH. lia.
Qed.

Lemma overallState_severity statuses :
  checkSeverity (overallState statuses) = maxSeverity statuses.
Proof.
  rewrite overallState_fold, fold_aggregate_severity, checkSeverity_empty.
  pose proof (maxSeverity_lower statuses). lia.
Qed.

(** X11: the severity of the overall state is the largest severity among
    the checks (-1 when there is none), so appending checks never lowers
    it. *)
Theorem overall_severity_is_maximum (statuses more : list CIStatus) :
  checkSeverity (overallState statuses) = maxSeverity statuses /\
  checkSeverity (overallState statuses)
  <= checkSeverity (overallState (statuses ++ more)).
Proof.
  rewrite !overallState_severity, maxSeverity_app. split; [reflexivity|lia].
Qed.

(** X12: the exit code read off the states that occur.  It is 1 exactly
    when some check is in a failing state; 2 exactly when some check is
    pending and none is failing; 0 exactly when some check is success or
    neutral and none is failing or pending; 3 exactly when no check has a
    recognised state.  Checks in unrecognised states change nothing as soon
    as one recognised check is present. *)
Theorem exit_code_by_content (statuses : list CIStatus) :
  (exitCodeOf (overallState statuses) = 1 <->
   Exists (fun c => In (State c) failingFamily) statuses) /\
  (exitCodeOf (overallState statuses) = 2 <->
   Exists (fun c => State c = "pending") statuses /\
   Forall (fun c => ~ In (State c) failingFamily) statuses) /\
  (exitCodeOf (overallState statuses) = 0 <->
   Exists (fun c => In (State c) passingFamily) statuses /\
   Forall (fun c => ~ In (State c) failingFamily /\ State c <> "pending")
          statuses) /\
  (exitCodeOf (overallState statuses) = 3 <->
   Forall (fun c => ~ In (State c) severityList) statuses).
Proof.
  rewrite exit_by_severity, overallState_severity.
  pose proof (maxSeverity_lower statuses) as Hlow.
  pose proof (maxSeverity_ge 3 statuses ltac:(lia)) as Hge3.
  pose proof (maxSeverity_ge 2 statuses ltac:(lia)) as Hge2.
  pose proof (maxSeverity_ge 0 statuses ltac:(lia)) as Hge0.
  pose proof (maxSeverity_le 2 statuses ltac:(lia)) as Hle2.
  pose proof (maxSeverity_le 1 statuses ltac:(lia)) as Hle1.
  pose proof (maxSeverity_le (-1) statuses ltac:(lia)) as Hle.
  assert (Exists (fun c => In (State c) failingFamily) statuses
          <-> Exists (fun c => 3 <= sev c) statuses) as Efail.
  { rewrite !List.Exists_exists. split; intros (c & Hc & H); exists c;
      (split; [exact Hc|]); now apply failing_severity. }
  assert (Forall (fun c => ~ In (State c) failingFamily) statuses
          <-> Forall (fun c => sev c <= 2) statuses) as Anofail.
  { rewrite !List.Forall_forall. split; intros H c Hc; specialize (H c Hc).
    - rewrite failing_severity in H. unfold sev. lia.
    - rewrite failing_severity. unfold sev in H. lia. }
  assert (Forall (fun c => ~ In (State c) failingFamily /\ State c <> "pending")
                 statuses
          <-> Forall (fun c => sev c <= 1) statuses) as Aquiet.
  { rewrite !List.Forall_forall. split; intros H c Hc; specialize (H c Hc).
    - rewrite failing_severity, pending_severity in H. unfold sev. lia.
    - rewrite failing_severity, pending_severity. unfold sev in H. lia. }
  assert (Forall (fun c => ~ In (State c) severityList) statuses
          <-> Forall (fun c => sev c <= -1) statuses) as Anone.
  { rewrite !List.Forall_forall. split; intros H c Hc; specialize (H c Hc).
    - apply checkSeverity_unknown in H. unfold sev. lia.
    - intros Hin. apply checkSeverity_In in Hin. unfold sev in H. lia. }
  rewrite Efail, Anofail, Aquiet, Anone, <- Hge3, <- Hle2, <- Hle1, <- Hle.
  split; [|split; [|split]].
  - destruct (Z.ltb_spec (maxSeverity statuses) 0),
      (Z.leb_spec (maxSeverity statuses) 1),
      (Z.eqb_spec (maxSeverity statuses) 2); lia.
  - split.
    + intros Hcode.
      assert (maxSeverity statuses = 2) as HM.
      { destruct (Z.ltb_spec (maxSeverity statuses) 0),
          (Z.leb_spec (maxSeverity statuses) 1),
          (Z.eqb_spec (maxSeverity statuses) 2); lia. }
      split; [|lia].
      assert (2 <= maxSeverity statuses) as H2 by lia.
      apply Hge2 in H2. apply List.Exists_exists in H2 as (c & Hc & Hs).
      apply List.Exists_exists. exists c. split; [exact Hc|].
      apply pending_severity.
      assert (Forall (fun c => sev c <= 2) statuses) as Hall by (apply Hle2; lia).
      rewrite List.Forall_forall in Hall. specialize (Hall c Hc).
      unfold sev in *. lia.
    + intros [Hex Hle2'].
      assert (2 <= maxSeverity statuses) as H2.
      { apply Hge2. apply List.Exists_exists in Hex as (c & Hc & Hs).
        apply List.Exists_exists. exists c. split; [exact Hc|].
        apply pending_severity in Hs. unfold sev. lia. }
      destruct (Z.ltb_spec (maxSeverity statuses) 0),
        (Z.leb_spec (maxSeverity statuses) 1),
        (Z.eqb_spec (maxSeverity statuses) 2); lia.
  - split.
    + intros Hcode.
      assert (0 <= maxSeverity statuses <= 1) as HM.
      { destruct (Z.ltb_spec (maxSeverity statuses) 0),
          (Z.leb_spec (maxSeverity statuses) 1),
          (Z.eqb_spec (maxSeverity statuses) 2); lia. }
      split; [|lia].
      assert (0 <= maxSeverity statuses) as H0 by lia.
      apply Hge0 in H0. apply List.Exists_exists in H0 as (c & Hc & Hs).
      apply List.Exists_exists. exists c. split; [exact Hc|].
      apply passing_severity.
      assert (Forall (fun c => sev c <= 1) statuses) as Hall by (apply Hle1; lia).
      rewrite List.Forall_forall in Hall. specialize (Hall c Hc).
      unfold sev in *. lia.
    + intros [Hex Hle1'].
      assert (0 <= maxSeverity statuses) as H0.
      { apply Hge0. apply List.Exists_exists in Hex as (c & Hc & Hs).
        apply List.Exists_exists. exists c. split; [exact Hc|].
        apply passing_severity in Hs. unfold sev. lia. }
      destruct (Z.ltb_spec (maxSeverity statuses) 0),
        (Z.leb_spec (maxSeverity statuses) 1),
        (Z.eqb_spec (maxSeverity statuses) 2); lia.
  - destruct (Z.ltb_spec (maxSeverity statuses) 0),
      (Z.leb_spec (maxSeverity statuses) 1),
      (Z.eqb_spec (maxSeverity statuses) 2); lia.
Qed.

(** ** The three tables agree *)

Lemma stateRank_unknown state :
  ~ In state severityList -> stateRank state = 2.
Proof. apply stateRank_table. Qed.

(** X13: the failing family is the same set of states in the exit-code
    switch, in the display rank and in the marker table, and so is the
    passing family: a state exits with 1 exactly when it is shown first
    (rank 1) and exactly when its marker is the cross, and it exits with 0
    exactly when it is shown last (rank 3). *)
Theorem tables_agree (state : string) :
  (exitCodeOf state = 1 <-> In state failingFamily) /\
  (exitCodeOf state = 1 <-> stateRank state = 1) /\
  (exitCodeOf state = 1 <-> fst (stateMarkerColor state) = markCross) /\
  (exitCodeOf state = 0 <-> In state passingFamily) /\
  (exitCodeOf state = 0 <-> stateRank state = 3).
Proof.
  known_or_not state.
  1-8: repeat split; intros H; try reflexivity; try discriminate H;
       try (simpl; tauto);
       try (simpl in H; repeat (destruct H as [H|H]; [discriminate H|]);
            contradiction).
  rewrite exitCodeOf_unknown, stateRank_unknown,
    stateMarkerColor_unknown by assumption.
  repeat split; intros H; try discriminate H;
    exfalso; apply Hin; simpl in H; simpl; tauto.
Qed.

(** ** Rendering passes *)

Lemma insertionSort_sorted_id (statuses : list CIStatus) :
  StronglySorted (fun a b => rankOf a <= rankOf b) statuses ->
  insertionSort rankLess statuses = statuses.
Proof.
  intros Hs. symmetry.
  now apply (stable_sort_is_insertionSort rankOf statuses statuses).
Qed.

Lemma world_eta w : mkWorld (heap w) (trace w) = w.
Proof. now destruct w. Qed.

(** X14: when the caller's slice is already ordered by display rank, a
    rendering pass leaves every slice exactly as it was, and the lines are
    emitted in the order of the slice. *)
Theorem sorted_slice_unchanged (statuses : slice) (formatString : string)
    (colorize : bool) (w : World) :
  StronglySorted (fun a b => rankOf a <= rankOf b) (sliceAt w statuses) ->
  heap (snd (ciVerboseFormat statuses formatString colorize w)) = heap w /\
  trace (snd (ciVerboseFormat statuses formatString colorize w))
  = trace w ++ map (verboseLine formatString colorize
                      (contextWidth (sliceAt w statuses)))
                   (sliceAt w statuses).
Proof.
  intros Hs. rewrite ciVerboseFormat_run. simpl.
  rewrite (insertionSort_sorted_id _ Hs). split; [|reflexivity].
  apply alter_id. intros xs Hx. apply insertionSort_sorted_id.
  unfold sliceAt in Hs. now rewrite Hx in Hs.
Qed.

Lemma sorted_slice_unchanged_witness :
  heap (snd (ciVerboseFormat 1%nat "" false sortedWorld)) = heap sortedWorld /\
  trace (snd (ciVerboseFormat 1%nat "" false sortedWorld))
  = trace sortedWorld ++ map (verboseLine "" false
                                (contextWidth (sliceAt sortedWorld 1%nat)))
                             (sliceAt sortedWorld 1%nat).
Proof.
  apply (sorted_slice_unchanged 1%nat "" false sortedWorld).
  repeat constructor; vm_compute; discriminate.
Defined.

(** X15: a second rendering pass never reorders anything: after one pass
    the slices are the same as after two. *)
Theorem second_pass_changes_no_slice (statuses : slice)
    (format1 format2 : string) (color1 color2 : bool) (w : World) :
  let w1 := snd (ciVerboseFormat statuses format1 color1 w) in
  let w2 := snd (ciVerboseFormat statuses format2 color2 w1) in
  heap w2 = heap w1.
Proof.
  cbv zeta.
  apply (sorted_slice_unchanged statuses format2 color2).
  rewrite ciVerboseFormat_slice. apply (insertionSort_ascending rankOf).
Qed.

(** X16: on an empty slice, or a slice with no array, the renderer prints
    nothing and changes nothing. *)
Theorem render_nothing (statuses : slice) (formatString : string)
    (colorize : bool) (w : World) :
  sliceAt w statuses = [] ->
  ciVerboseFormat statuses formatString colorize w = (tt, w).
Proof.
  intros Hempty. rewrite ciVerboseFormat_run, Hempty. simpl.
  rewrite app_nil_r. f_equal. rewrite <- (world_eta w) at 3. f_equal.
  apply alter_id. intros xs Hx. unfold sliceAt in Hempty.
  rewrite Hx in Hempty. simpl in Hempty. now subst xs.
Qed.

Lemma render_nothing_witness :
  ciVerboseFormat 7%nat "%t" true twoChecksWorld = (tt, twoChecksWorld).
Proof.
  apply (render_nothing 7%nat "%t" true twoChecksWorld). reflexivity.
Defined.

(** ** What the command prints *)

Lemma overallState_recognised statuses :
  overallState statuses = "" \/ In (overallState statuses) severityList.
Proof.
  rewrite overallState_fold.
  destruct (fold_aggregate_shape statuses "")
    as [[_ Hf]|(pre & c & post & _ & Hf & Hlt & _)]; [now left|right].
  rewrite Hf. apply checkSeverity_In. rewrite checkSeverity_empty in Hlt.
  unfold sev in Hlt. lia.
Qed.

(** X17: in verbose mode, which a format alone turns on, and with at least
    one check, the command prints no summary line: it emits one expanded
    line per check, with the given format and colour setting, and still
    exits with the code of the overall state of the checks as fetched. *)
Theorem verbose_prints_one_line_per_check (args : Args) (sha : string)
    (response : slice) (w : World) :
  Noop args = false ->
  flagVerbose args || formatReceived args = true ->
  sliceAt w response <> [] ->
  let w' := snd (ciStatus args sha response w) in
  let lines := map (verboseLine (formatValue args) (colorizeOutput args)
                      (contextWidth (sliceAt w response)))
                   (sliceAt w' response) in
  trace w' = trace w ++ lines /\
  length lines = length (sliceAt w response) /\
  Forall (fun e => forall line, e <> Println line) lines /\
  fst (ciStatus args sha response w)
  = Some (exitCodeOf (overallState (sliceAt w response))).
Proof.
  intros Hnoop Hverbose Hne. cbv zeta.
  assert (snd (ciStatus args sha response w)
          = snd (ciVerboseFormat response (formatValue args)
                   (colorizeOutput args) w)) as Hw.
  { unfold ciStatus. rewrite Hnoop, Hverbose.
    unfold bind at 1. unfold readSlice.
    destruct (sliceAt w response) as [|c rest]; [contradiction|].
    simpl. unfold bind.
    now destruct (ciVerboseFormat response (formatValue args)
                    (colorizeOutput args) w). }
  rewrite Hw, ciVerboseFormat_slice.
  split; [now rewrite ciVerboseFormat_run|].
  split; [|split].
  - rewrite length_map.
    apply Permutation_length, (insertionSort_Permutation rankOf).
  - apply List.Forall_forall. intros e He line.
    apply in_map_iff in He as (c & <- & _). unfold verboseLine.
    now destruct (stateMarkerColor (State c)).
  - now apply ciStatus_exit.
Qed.

Lemma verbose_prints_one_line_per_check_witness :
  let args := mkArgs false false true "%t %S" false in
  let w' := snd (ciStatus args "0123abc" 1%nat twoChecksWorld) in
  let lines := map (verboseLine (formatValue args) (colorizeOutput args)
                      (contextWidth (sliceAt twoChecksWorld 1%nat)))
                   (sliceAt w' 1%nat) in
  trace w' = trace twoChecksWorld ++ lines /\
  length lines = length (sliceAt twoChecksWorld 1%nat) /\
  Forall (fun e => forall line, e <> Println line) lines /\
  fst (ciStatus args "0123abc" 1%nat twoChecksWorld)
  = Some (exitCodeOf (overallState (sliceAt twoChecksWorld 1%nat))).
Proof.
  apply (verbose_prints_one_line_per_check
           (mkArgs false false true "%t %S" false) "0123abc" 1%nat
           twoChecksWorld); [reflexivity|reflexivity|discriminate].
Defined.

(** X18: without verbose mode the command prints exactly one line and
    touches no slice.  The line is "no status" or one of the eight
    recognised states, never an unrecognised state, and it is "no status"
    exactly when the exit code is 3. *)
Theorem terse_line_and_exit_code (args : Args) (sha : string)
    (response : slice) (w : World) :
  Noop args = false ->
  flagVerbose args || formatReceived args = false ->
  exists line,
    ciStatus args sha response w
    = (Some (exitCodeOf (overallState (sliceAt w response))),
       mkWorld (heap w) (trace w ++ [Println line])) /\
    (line = "no status" \/
     line = overallState (sliceAt w response) /\ In line severityList) /\
    (line = "no status" <->
     exitCodeOf (overallState (sliceAt w response)) = 3).
Proof.
  intros Hnoop Hterse. unfold ciStatus. rewrite Hnoop, Hterse.
  unfold bind at 1. unfold readSlice. simpl.
  destruct (overallState_recognised (sliceAt w response)) as [Hempty|Hrec].
  - exists "no status". rewrite Hempty. simpl. repeat split; auto.
  - exists (overallState (sliceAt w response)).
    destruct (String.eqb_spec (overallState (sliceAt w response)) "")
      as [Hempty|Hfull].
    + rewrite Hempty in Hrec. simpl in Hrec.
      repeat (destruct Hrec as [Hrec|Hrec]; [discriminate Hrec|]).
      contradiction.
    + simpl. split; [reflexivity|]. split; [right; auto|].
      revert Hrec. generalize (overallState (sliceAt w response)) as state.
      intros state Hrec. simpl in Hrec.
      repeat (destruct Hrec as [<-|Hrec];
              [split; intros H; discriminate H|]).
      contradiction.
Qed.

Lemma terse_line_and_exit_code_witness :
  exists line,
    ciStatus plainArgs "0123abc" 1%nat twoChecksWorld
    = (Some (exitCodeOf (overallState (sliceAt twoChecksWorld 1%nat))),
       mkWorld (heap twoChecksWorld) (trace twoChecksWorld ++ [Println line])) /\
    (line = "no status" \/
     line = overallState (sliceAt twoChecksWorld 1%nat) /\
     In line severityList) /\
    (line = "no status" <->
     exitCodeOf (overallState (sliceAt twoChecksWorld 1%nat)) = 3).
Proof.
  apply (terse_line_and_exit_code plainArgs "0123abc" 1%nat twoChecksWorld);
    reflexivity.
Defined.

(** X19: the placeholder map binds exactly the four names S, sC, t and U;
    S, t and U are the check's state, name and URL whatever the colour
    setting, and every other name is unbound. *)
Theorem placeholders_bindings (status : CIStatus) (color : Z)
    (colorize : bool) :
  placeholdersOf status color colorize !! "S" = Some (State status) /\
  placeholdersOf status color colorize !! "t" = Some (Context status) /\
  placeholdersOf status color colorize !! "U" = Some (TargetUrl status) /\
  (forall key, placeholdersOf status color colorize !! key = None <->
               ~ In key ["S"; "sC"; "t"; "U"]).
Proof.
  assert (forall key, ~ In key ["S"; "sC"; "t"; "U"] ->
                      placeholdersOf status color colorize !! key = None)
    as Hnone.
  { intros key Hnot. unfold placeholdersOf.
    destruct colorize;
      rewrite !lookup_insert_ne by (intros <-; apply Hnot; simpl; tauto);
      apply lookup_empty. }
  unfold placeholdersOf in *. destruct colorize.
  - split; [|split; [|split]].
    + rewrite !lookup_insert_ne by discriminate. apply lookup_insert_eq.
    + rewrite !lookup_insert_ne by discriminate. apply lookup_insert_eq.
    + rewrite lookup_insert_ne by discriminate. apply lookup_insert_eq.
    + intros key. split; [|apply Hnone].
      intros Hk Hin. simpl in Hin.
      repeat (destruct Hin as [<-|Hin]; [revert Hk|]); [..|contradiction].
      * rewrite !lookup_insert_ne by discriminate.
        rewrite lookup_insert_eq. discriminate.
      * rewrite lookup_insert_eq. discriminate.
      * rewrite !lookup_insert_ne by discriminate.
        rewrite lookup_insert_eq. discriminate.
      * rewrite lookup_insert_ne by discriminate.
        rewrite lookup_insert_eq. discriminate.
  - split; [|split; [|split]].
    + rewrite !lookup_insert_ne by discriminate. apply lookup_insert_eq.
    + rewrite !lookup_insert_ne by discriminate. apply lookup_insert_eq.
    + apply lookup_insert_eq.
    + intros key. split; [|apply Hnone].
      intros Hk Hin. simpl in Hin.
      repeat (destruct Hin as [<-|Hin]; [revert Hk|]); [..|contradiction].
      * rewrite !lookup_insert_ne by discriminate.
        rewrite lookup_insert_eq. discriminate.
      * rewrite !lookup_insert_ne by discriminate.
        rewrite lookup_insert_eq. discriminate.
      * rewrite !lookup_insert_ne by discriminate.
        rewrite lookup_insert_eq. discriminate.
      * rewrite lookup_insert_eq. discriminate.
Qed.
